(** * The conversation-chain migration notebook

    A shallow embedding of the Python code cells of
    [docs/docs/versions/migrating_chains/conversation_chain.ipynb]:
    the module-level bindings [history] and [store], the two glue
    functions [get_history] and [get_session_history], and the two prompts.

    Python objects have identity and are shared by reference, so the
    message-history objects live in a heap and the notebook's variables
    hold addresses.  A Python statement that may raise is a computation in
    a state-and-exception monad. *)

From stdpp Require Import gmap strings list fin_maps.

(** ** Messages and history objects *)

Inductive role := System | Human | AI.

Record message := Message { msg_role : role; content : string }.

Global Instance role_eq_dec : EqDecision role.
Proof. solve_decision. Defined.

Global Instance message_eq_dec : EqDecision message.
Proof. solve_decision. Defined.

(** Modelled from the spec: the class [InMemoryChatMessageHistory] is
    imported from [langchain_core.chat_history]; the spec describes it as
    "an in-memory list of messages".  An object of the class is its
    [messages] list. *)
Record InMemoryChatMessageHistory := History { messages : list message }.

(** An address of a history object.  Equality of addresses is Python's
    [is]. *)
Definition loc := nat.

(** ** The notebook's state

    [heap] holds the history objects that were created, by address;
    [history] and [store] are the module-level variables of the two LCEL
    cells.  [store] is a Python [dict] keyed by session identifier. *)
Record state := State {
  heap : list InMemoryChatMessageHistory;
  history : loc;
  store : gmap string loc;
}.

(** ** Exceptions and the monad of statements *)

Inductive exn :=
  | KeyError (key : string)
  (** a reference to no object: Python cannot produce one, and the
      theorems below show that the notebook's code never does *)
  | NoObject (l : loc).

Inductive result (A : Type) :=
  | Ok (a : A)
  | Raise (e : exn).
Arguments Ok {A} a.
Arguments Raise {A} e.

Definition M (A : Type) : Type := state → result (A * state).

Global Instance M_ret : MRet M := λ A a σ, Ok (a, σ).

Global Instance M_bind : MBind M := λ A B k c σ,
  match c σ with
  | Ok (a, σ') => k a σ'
  | Raise e => Raise e
  end.

Definition raise {A} (e : exn) : M A := λ _, Raise e.

(** ** Primitive statements *)

(** [InMemoryChatMessageHistory()]: a new object, with no messages, at an
    address that no existing object has. *)
Definition new_InMemoryChatMessageHistory : M loc := λ σ,
  Ok (length (heap σ),
      State (heap σ ++ [History []]) (history σ) (store σ)).

(** [key in store] *)
Definition store_contains (key : string) : M bool := λ σ,
  Ok (bool_decide (is_Some (store σ !! key)), σ).

(** [store[key] = value] *)
Definition store_setitem (key : string) (value : loc) : M unit := λ σ,
  Ok (tt, State (heap σ) (history σ) (<[key := value]> (store σ))).

(** [store[key]], which raises [KeyError] on a key that is not bound. *)
Definition store_getitem (key : string) : M loc := λ σ,
  match store σ !! key with
  | Some l => Ok (l, σ)
  | None => Raise (KeyError key)
  end.

(** [store = {}] *)
Definition assign_store_empty : M unit := λ σ,
  Ok (tt, State (heap σ) (history σ) ∅).

(** [history = h] *)
Definition assign_history (h : loc) : M unit := λ σ,
  Ok (tt, State (heap σ) h (store σ)).

(** [h.messages], through the reference [h]. *)
Definition get_messages (h : loc) : M (list message) := λ σ,
  match heap σ !! h with
  | Some o => Ok (messages o, σ)
  | None => Raise (NoObject h)
  end.

(** [h.add_message(m)]: the object's list is extended in place, so the
    change is seen through every reference to the object. *)
Definition add_message (h : loc) (m : message) : M unit := λ σ,
  match heap σ !! h with
  | Some o =>
      Ok (tt, State (<[h := History (messages o ++ [m])]> (heap σ))
                    (history σ) (store σ))
  | None => Raise (NoObject h)
  end.

(** ** The glue functions of the notebook *)

(** [[
def get_history():
    return history
]] *)
Definition get_history : M loc := λ σ, Ok (history σ, σ).

(** [[
def get_session_history(session_id: str) -> BaseChatMessageHistory:
    if session_id not in store:
        store[session_id] = InMemoryChatMessageHistory()
    return store[session_id]
]] *)
Definition get_session_history (session_id : string) : M loc :=
  b ← store_contains session_id;
  (if negb b
   then h ← new_InMemoryChatMessageHistory; store_setitem session_id h
   else mret tt) ;;
  store_getitem session_id.

(** [[get_session_history]] called on each identifier of a list, in order. *)
Fixpoint get_session_histories (session_ids : list string) : M (list loc) :=
  match session_ids with
  | [] => mret []
  | session_id :: rest =>
      h ← get_session_history session_id;
      hs ← get_session_histories rest;
      mret (h :: hs)
  end.

(** ** The framework around the glue functions *)

(** A model client: the prompt it is sent determines the text it answers.
    The notebook's [ChatOpenAI()] is one such client, not known here. *)
Definition model := list message → string.

(** Modelled from the spec: [RunnableWithMessageHistory] is a class of
    [langchain_core.runnables.history], not code of the notebook.  The spec
    calls it "a history-wrapping combinator taking a session-lookup
    callable and a configuration map with a session-identifier key", and
    the notebook's first cell says that it "should be instantiated with a
    callable that returns a chat message history" which by default takes
    "a single argument session_id".  The callable is either the
    no-argument [get_history] or the one-argument [get_session_history]. *)
Inductive factory :=
  | NoArg (get : M loc)
  | OneArg (get : string → M loc).

(** The history of a call: the no-argument callable is called as it is,
    the one-argument callable on [config["configurable"]["session_id"]]. *)
Definition resolve_history (get_session_history : factory)
    (config : gmap string (gmap string string)) : M loc :=
  match get_session_history with
  | NoArg get => get
  | OneArg get =>
      match config !! "configurable" ≫= (.!! "session_id") with
      | Some session_id => get session_id
      | None => raise (KeyError "session_id")
      end
  end.
(* The spec does not say what a configuration without the key leads to;
   here the lookup raises, as a lookup in a Python [dict] does. *)

(** Modelled from the spec: [invoke] of the combinator, for a wrapped
    [chain] that maps the past messages and the input to the answer text.
    The history is resolved, its messages are handed to the chain under
    [history_messages_key], and the turn (the human input and the answer)
    is appended to the same history object. *)
Definition RunnableWithMessageHistory_invoke
    (chain : list message → string → string)
    (get_session_history : factory)
    (input : string) (config : gmap string (gmap string string)) : M string :=
  h ← resolve_history get_session_history config;
  chat_history ← get_messages h;
  let output := chain chat_history input in
  add_message h (Message Human input) ;;
  add_message h (Message AI output) ;;
  mret output.

(** The line feed of Python's triple-quoted strings. *)
Definition nl : string := String (Ascii.ascii_of_nat 10) EmptyString.

(** Modelled from the spec: the text under which a buffer memory hands its
    messages to a string template, one line per message.  The notebook
    records the text of the empty memory: ['history': '']. *)
Definition role_prefix (r : role) : string :=
  match r with System => "System" | Human => "Human" | AI => "AI" end.

Definition get_buffer_string (ms : list message) : string :=
  String.concat nl
    (map (λ m, role_prefix (msg_role m) +:+ ": " +:+ content m) ms).

(** *** The legacy cell *)
Module Legacy.

(** The triple-quoted [template]: a line feed, then the three lines
[[
You are a pirate. Answer the following questions as best you can.
Chat history: {history}
Question: {input}
]]
    each ended by a line feed. *)
Definition template (history input : string) : string :=
  nl +:+ "You are a pirate. Answer the following questions as best you can."
     +:+ nl +:+ "Chat history: " +:+ history
     +:+ nl +:+ "Question: " +:+ input +:+ nl.

(** [prompt = ChatPromptTemplate.from_template(template)]: one human
    message that holds the formatted text. *)
Definition prompt (history input : string) : list message :=
  [Message Human (template history input)].

(** The value of a call of the chain, as the notebook prints it. *)
Record output := Output {
  out_input : string;
  out_history : string;
  out_response : string;
}.

(** Modelled from the spec: [ConversationChain] "bundles a prompt
    template, a model client, and a memory object".
    [chain({"input": input})] on the messages [memory] that the
    [ConversationBufferMemory] holds: the value of the call and the
    messages that the memory holds afterwards. *)
Definition chain (llm : model) (input : string) (memory : list message)
    : output * list message :=
  let history := get_buffer_string memory in
  let response := llm (prompt history input) in
  (Output input history response,
   memory ++ [Message Human input; Message AI response]).

End Legacy.

(** *** The first LCEL cell: one history for all sessions *)
Module Shared.

(** [[
prompt = ChatPromptTemplate.from_messages(
    [
        ("system", "You are a pirate. Answer the following questions as best you can."),
        ("placeholder", "{chat_history}"),
        ("human", "{input}"),
    ]
)
]] *)
Definition prompt (chat_history : list message) (input : string)
    : list message :=
  [Message System
     "You are a pirate. Answer the following questions as best you can."]
  ++ chat_history ++ [Message Human input].

(** [chain = prompt | ChatOpenAI() | StrOutputParser()] *)
Definition chain (llm : model) (chat_history : list message)
    (input : string) : string :=
  llm (prompt chat_history input).

(** [[
wrapped_chain = RunnableWithMessageHistory(
    chain,
    get_history,
    history_messages_key="chat_history",
)
]] *)
Definition wrapped_chain (llm : model) (input : string)
    (config : gmap string (gmap string string)) : M string :=
  RunnableWithMessageHistory_invoke (chain llm) (NoArg get_history)
    input config.

End Shared.

(** *** The second LCEL cell: one history per session *)
Module PerSession.

(** [chain = prompt | ChatOpenAI() | StrOutputParser()], with the
    [prompt] of the first LCEL cell. *)
Definition chain (llm : model) (chat_history : list message)
    (input : string) : string :=
  llm (Shared.prompt chat_history input).

(** [[
wrapped_chain = RunnableWithMessageHistory(
    chain,
    get_session_history,
    history_messages_key="chat_history",
)
]] *)
Definition wrapped_chain (llm : model) (input : string)
    (config : gmap string (gmap string string)) : M string :=
  RunnableWithMessageHistory_invoke (chain llm) (OneArg get_session_history)
    input config.

End PerSession.

(** ** Conversations

    A conversation is the list of the user's inputs, one per turn.  The
    model client answers each turn from the prompt it is sent. *)






(** ** The states of a run of the notebook *)

(** What code that holds the glue functions and the history objects they
    return can do to the state. *)
Inductive action :=
  | CallGetHistory
  | CallGetSessionHistory (session_id : string)
  | AddMessage (h : loc) (m : message).

Definition perform (a : action) : M unit :=
  match a with
  | CallGetHistory => get_history ;; mret tt
  | CallGetSessionHistory session_id =>
      get_session_history session_id ;; mret tt
  | AddMessage h m => add_message h m
  end.

(** A list of actions performed in order, up to the first that raises. *)
Fixpoint run (actions : list action) : M unit :=
  match actions with
  | [] => mret tt
  | a :: rest => perform a ;; run rest
  end.

(** The module-level statements of the two LCEL cells:
    [history = InMemoryChatMessageHistory()] and [store = {}]. *)
Definition module_level : M unit :=
  h ← new_InMemoryChatMessageHistory;
  assign_history h ;;
  assign_store_empty.

(** The state they leave when no object existed before. *)
Definition init_state : state := State [History []] 0 ∅.

Inductive reachable : state → Prop :=
  | reachable_init : reachable init_state
  | reachable_step σ a σ' :
      reachable σ → perform a σ = Ok (tt, σ') → reachable σ'.

(** The state after the notebook's last cell has created the history of
    session ["abc123"], before anything is appended to it. *)
Definition abc123_state : state :=
  State [History []; History []] 0 {["abc123" := 1]}.

(** Every reference held by a variable designates an object. *)
Definition allocated (σ : state) : Prop :=
  history σ < length (heap σ)
  ∧ ∀ key h, store σ !! key = Some h → h < length (heap σ).

(** No history object is bound to two session identifiers, and none is the
    shared [history]. *)
Definition separated (σ : state) : Prop :=
  (∀ k1 k2 h, store σ !! k1 = Some h → store σ !! k2 = Some h → k1 = k2)
  ∧ ∀ key, store σ !! key ≠ Some (history σ).

(** A call of [get_session_history] that creates: a new object without
    messages, at the address [h] that no object had, bound to
    [session_id] in the store; nothing else changes. *)
Definition creates (σ : state) (session_id : string) (h : loc) (σ' : state)
    : Prop :=
  heap σ !! h = None
  ∧ heap σ' = heap σ ++ [History []]
  ∧ heap σ' !! h = Some (History [])
  ∧ store σ' = <[session_id := h]> (store σ)
  ∧ history σ' = history σ.

(** * Properties *)

(** ** Equations of the monad and of the glue functions *)

Lemma bind_Ok {A B} (c : M A) (k : A → M B) σ a σ' :
  c σ = Ok (a, σ') → (c ≫= k) σ = k a σ'.
Proof. intros Hc. unfold mbind, M_bind. by rewrite Hc. Qed.

Lemma bind_Raise {A B} (c : M A) (k : A → M B) σ e :
  c σ = Raise e → (c ≫= k) σ = Raise e.
Proof. intros Hc. unfold mbind, M_bind. by rewrite Hc. Qed.

Lemma bind_inv {A B} (c : M A) (k : A → M B) σ b σ'' :
  (c ≫= k) σ = Ok (b, σ'') → ∃ a σ', c σ = Ok (a, σ') ∧ k a σ' = Ok (b, σ'').
Proof.
  unfold mbind, M_bind. destruct (c σ) as [[a σ']|e]; [eauto | done].
Qed.

(** On a bound identifier the call returns what is bound and changes
    nothing. *)
Lemma get_session_history_bound session_id σ h :
  store σ !! session_id = Some h →
  get_session_history session_id σ = Ok (h, σ).
Proof.
  intros Hb. unfold get_session_history.
  rewrite (bind_Ok _ _ σ true σ).
  - simpl. unfold mbind, M_bind, mret, M_ret, store_getitem. by rewrite Hb.
  - unfold store_contains. by rewrite Hb, bool_decide_eq_true_2.
Qed.

(** On an unbound identifier the call creates, inserts and returns. *)
Lemma get_session_history_unbound session_id σ :
  store σ !! session_id = None →
  get_session_history session_id σ
  = Ok (length (heap σ),
        State (heap σ ++ [History []]) (history σ)
              (<[session_id := length (heap σ)]> (store σ))).
Proof.
  intros Hn. unfold get_session_history.
  rewrite (bind_Ok _ _ σ false σ).
  - simpl. unfold mbind, M_bind, new_InMemoryChatMessageHistory,
      store_setitem, store_getitem. simpl. by rewrite lookup_insert_eq.
  - unfold store_contains. rewrite Hn, bool_decide_eq_false_2; [done|].
    by intros [? ?].
Qed.

Lemma get_session_history_returns session_id σ :
  ∃ h σ', get_session_history session_id σ = Ok (h, σ')
          ∧ store σ' !! session_id = Some h.
Proof.
  destruct (store σ !! session_id) as [h|] eqn:Hs.
  - exists h, σ. split; [by apply get_session_history_bound | done].
  - eexists _, _. split; [by apply get_session_history_unbound |].
    simpl. by rewrite lookup_insert_eq.
Qed.

(** A call keeps every binding of the store, the shared history and every
    object that exists. *)
Lemma get_session_history_frame session_id σ h σ' :
  get_session_history session_id σ = Ok (h, σ') →
  store σ ⊆ store σ'
  ∧ history σ' = history σ
  ∧ (∀ l o, heap σ !! l = Some o → heap σ' !! l = Some o).
Proof.
  destruct (store σ !! session_id) as [h0|] eqn:Hs.
  - rewrite (get_session_history_bound _ _ _ Hs). intros [= <- <-]. done.
  - rewrite (get_session_history_unbound _ _ Hs). intros [= <- <-]. simpl.
    split_and!; [by apply insert_subseteq | done |].
    intros l o Hl. by apply lookup_app_l_Some.
Qed.

Lemma module_level_init : module_level (State [] 0 ∅) = Ok (tt, init_state).
Proof. reflexivity. Qed.

(** ** Invariants of a run *)

Lemma add_message_inv h m σ u σ' :
  add_message h m σ = Ok (u, σ') →
  ∃ o, heap σ !! h = Some o
       ∧ heap σ' = <[h := History (messages o ++ [m])]> (heap σ)
       ∧ history σ' = history σ ∧ store σ' = store σ.
Proof.
  unfold add_message. destruct (heap σ !! h) as [o|]; [|done].
  intros [= <- <-]. by exists o.
Qed.

Lemma add_message_allocated h m σ o :
  heap σ !! h = Some o →
  add_message h m σ
  = Ok (tt, State (<[h := History (messages o ++ [m])]> (heap σ))
                  (history σ) (store σ)).
Proof. intros Hh. unfold add_message. by rewrite Hh. Qed.

Lemma perform_allocated a σ σ' :
  perform a σ = Ok (tt, σ') → allocated σ → allocated σ'.
Proof.
  intros Hp [Hh Hs]. destruct a as [|session_id|h m]; simpl in Hp.
  - apply bind_inv in Hp as (l & σ1 & Hg & Hr).
    injection Hg as <- <-. injection Hr as <-. by split.
  - apply bind_inv in Hp as (l & σ1 & Hg & Hr). injection Hr as <-.
    destruct (store σ !! session_id) as [h0|] eqn:Hb.
    + rewrite (get_session_history_bound _ _ _ Hb) in Hg.
      injection Hg as <- <-. by split.
    + rewrite (get_session_history_unbound _ _ Hb) in Hg.
      injection Hg as <- <-. split; simpl.
      * rewrite length_app. lia.
      * intros key h. rewrite length_app. simpl.
        destruct (decide (session_id = key)) as [->|Hne].
        -- rewrite lookup_insert_eq. intros [= <-]. lia.
        -- rewrite lookup_insert_ne by done. intros Hk%Hs. lia.
  - apply add_message_inv in Hp as (o & Ho & Hheap & Hhist & Hst).
    split.
    + rewrite Hhist, Hheap, length_insert. done.
    + intros key l. rewrite Hst, Hheap, length_insert. apply Hs.
Qed.

Lemma perform_separated a σ σ' :
  perform a σ = Ok (tt, σ') → allocated σ → separated σ → separated σ'.
Proof.
  intros Hp [Hh Hs] [Hinj Hsep]. destruct a as [|session_id|h m]; simpl in Hp.
  - apply bind_inv in Hp as (l & σ1 & Hg & Hr).
    injection Hg as <- <-. injection Hr as <-. by split.
  - apply bind_inv in Hp as (l & σ1 & Hg & Hr). injection Hr as <-.
    destruct (store σ !! session_id) as [h0|] eqn:Hb.
    + rewrite (get_session_history_bound _ _ _ Hb) in Hg.
      injection Hg as <- <-. by split.
    + rewrite (get_session_history_unbound _ _ Hb) in Hg.
      injection Hg as <- <-. split; simpl.
      * intros k1 k2 h.
        destruct (decide (session_id = k1)) as [<-|Hn1];
          destruct (decide (session_id = k2)) as [<-|Hn2]; [done|..].
        -- rewrite lookup_insert_eq, lookup_insert_ne by done.
           intros [= <-] Hk%Hs. lia.
        -- rewrite lookup_insert_ne, lookup_insert_eq by done.
           intros Hk%Hs [= <-]. lia.
        -- rewrite !lookup_insert_ne by done. apply Hinj.
      * intros key. destruct (decide (session_id = key)) as [->|Hne].
        -- rewrite lookup_insert_eq. intros [= Heq]. lia.
        -- rewrite lookup_insert_ne by done. apply Hsep.
  - apply add_message_inv in Hp as (o & Ho & Hheap & Hhist & Hst).
    split.
    + intros k1 k2 l. rewrite Hst. apply Hinj.
    + intros key. rewrite Hst, Hhist. apply Hsep.
Qed.

Lemma reachable_allocated σ : reachable σ → allocated σ.
Proof.
  induction 1 as [|σ a σ' _ IH Hp].
  - split; simpl; [lia | intros key h; by rewrite lookup_empty].
  - by eapply perform_allocated.
Qed.

Lemma reachable_separated σ : reachable σ → separated σ.
Proof.
  induction 1 as [|σ a σ' Hr IH Hp].
  - split; simpl; [intros k1 k2 h | intros key]; by rewrite lookup_empty.
  - eapply perform_separated; eauto using reachable_allocated.
Qed.

Lemma get_session_histories_frame session_ids σ :
  ∃ hs σ', get_session_histories session_ids σ = Ok (hs, σ')
           ∧ store σ ⊆ store σ'.
Proof.
  revert σ. induction session_ids as [|session_id rest IH]; intros σ.
  - by exists [], σ.
  - destruct (get_session_history_returns session_id σ) as (h & σ1 & Hg & _).
    destruct (IH σ1) as (hs & σ2 & Hrest & Hsub).
    exists (h :: hs), σ2. split.
    + simpl. rewrite (bind_Ok _ _ _ _ _ Hg), (bind_Ok _ _ _ _ _ Hrest). done.
    + apply get_session_history_frame in Hg as (Hsub1 & _).
      by transitivity (store σ1).
Qed.

(** ** The session-keyed store *)

(** C1: for every session identifier and every state, the call returns
    the history object that the store binds to the identifier after the
    call; it creates a new object without messages and inserts it under
    the identifier if and only if the identifier is not a key of the store,
    and otherwise changes nothing. *)
Theorem get_session_history_lazy (session_id : string) (σ : state) :
  ∃ h σ', get_session_history session_id σ = Ok (h, σ')
    ∧ store σ' !! session_id = Some h
    ∧ (creates σ session_id h σ' ↔ session_id ∉ dom (store σ))
    ∧ (σ' = σ ↔ session_id ∈ dom (store σ)).
Proof.
  destruct (store σ !! session_id) as [h|] eqn:Hs.
  - exists h, σ. split; [by apply get_session_history_bound|].
    assert (session_id ∈ dom (store σ)) as Hin by (apply elem_of_dom; eauto).
    split_and!; [done | | done].
    split; [|done]. intros (_ & Happ & _). apply (f_equal length) in Happ.
    rewrite length_app in Happ. simpl in Happ. lia.
  - eexists _, _. split; [by apply get_session_history_unbound|].
    assert (session_id ∉ dom (store σ)) as Hout
      by (by apply not_elem_of_dom).
    simpl. split_and!.
    + by rewrite lookup_insert_eq.
    + split; [done|]. intros _. unfold creates. simpl. split_and!; try done.
      * by apply lookup_ge_None.
      * by apply list_lookup_middle.
    + split; [|done]. intros Heq. apply (f_equal heap) in Heq. simpl in Heq.
      apply (f_equal length) in Heq. rewrite length_app in Heq.
      simpl in Heq. lia.
Qed.

(** C4: a second call with the same identifier, right after a first one,
    returns the same object as the first and leaves the state, and so the
    store, as the first call left it. *)
Theorem get_session_history_idempotent (session_id : string) (σ : state) :
  ∃ h σ1, get_session_history session_id σ = Ok (h, σ1)
          ∧ get_session_history session_id σ1 = Ok (h, σ1).
Proof.
  destruct (get_session_history_returns session_id σ) as (h & σ1 & Hg & Hb).
  exists h, σ1. split; [done | by apply get_session_history_bound].
Qed.

(** C5: the two glue functions never raise: in every state, for every
    session identifier, each returns a reference, and where the
    references held by the variables designate objects, the reference
    returned designates a history object. *)
Theorem glue_functions_total (session_id : string) (σ : state) :
  (∃ h σ', get_session_history session_id σ = Ok (h, σ')
           ∧ (allocated σ → is_Some (heap σ' !! h)))
  ∧ (∃ h σ', get_history σ = Ok (h, σ')
             ∧ (allocated σ → is_Some (heap σ' !! h))).
Proof.
  split.
  - destruct (store σ !! session_id) as [h|] eqn:Hs.
    + exists h, σ. split; [by apply get_session_history_bound|].
      intros [_ Hst]. apply lookup_lt_is_Some. eauto.
    + eexists _, _. split; [by apply get_session_history_unbound|].
      intros _. simpl. apply lookup_lt_is_Some. rewrite length_app. simpl. lia.
  - exists (history σ), σ. split; [done|].
    intros [Hh _]. by apply lookup_lt_is_Some.
Qed.

Lemma glue_functions_total_witness :
  allocated init_state
  ∧ ∃ h σ', get_session_history "abc123" init_state = Ok (h, σ')
            ∧ is_Some (heap σ' !! h).
Proof.
  assert (allocated init_state) as Ha
    by (split; simpl; [lia | intros key h; by rewrite lookup_empty]).
  split; [done|].
  destruct (glue_functions_total "abc123" init_state)
    as [(h & σ' & Hg & Hobj) _].
  exists h, σ'. split; [done | by apply Hobj].
Defined.

(** C6: a history object is a list of messages held in the heap of the
    running notebook, and [store = {}] leaves no identifier bound; the
    first call for any identifier after it returns a history without
    messages. *)
Theorem first_lookup_has_no_messages (session_id : string) (σ : state) :
  ∃ h σ',
    (assign_store_empty ;;
     h ← get_session_history session_id;
     ms ← get_messages h;
     mret (h, ms)) σ = Ok ((h, []), σ')
    ∧ heap σ' !! h = Some (History []).
Proof.
  set (σ0 := State (heap σ) (history σ) ∅).
  assert (store σ0 !! session_id = None) as Hn by apply lookup_empty.
  pose proof (get_session_history_unbound _ _ Hn) as Hg.
  eexists _, _. split.
  - rewrite (bind_Ok _ _ σ tt σ0) by done.
    rewrite (bind_Ok _ _ _ _ _ Hg).
    unfold mbind, M_bind, get_messages. simpl.
    rewrite list_lookup_middle by done. done.
  - simpl. by apply list_lookup_middle.
Qed.

(** C10: no sequence of calls of [get_session_history] removes a key of
    the store or binds it to another object: a binding of the store is
    still there after the calls, and a later lookup of its identifier
    returns the object it bound. *)
Theorem store_only_grows (session_ids : list string) (σ : state)
    (key : string) (h : loc) :
  store σ !! key = Some h →
  ∃ hs σ', get_session_histories session_ids σ = Ok (hs, σ')
    ∧ store σ ⊆ store σ'
    ∧ store σ' !! key = Some h
    ∧ get_session_history key σ' = Ok (h, σ').
Proof.
  intros Hb.
  destruct (get_session_histories_frame session_ids σ)
    as (hs & σ' & Hrun & Hsub).
  exists hs, σ'. assert (store σ' !! key = Some h) as Hb'
    by (by eapply lookup_weaken).
  split_and!; [done.. | by apply get_session_history_bound].
Qed.

Lemma store_only_grows_witness :
  ∃ hs σ',
    get_session_histories ["xyz789"; "abc123"] abc123_state = Ok (hs, σ')
    ∧ store abc123_state ⊆ store σ'
    ∧ store σ' !! "abc123" = Some 1
    ∧ get_session_history "abc123" σ' = Ok (1, σ').
Proof.
  apply (store_only_grows ["xyz789"; "abc123"] abc123_state "abc123" 1).
  reflexivity.
Defined.

Lemma reachable_get_session_history session_id σ h σ' :
  reachable σ → get_session_history session_id σ = Ok (h, σ') → reachable σ'.
Proof.
  intros Hr Hg. apply (reachable_step σ (CallGetSessionHistory session_id));
    [done|]. simpl. by rewrite (bind_Ok _ _ _ _ _ Hg).
Qed.

Lemma reachable_history σ : reachable σ → history σ = history init_state.
Proof.
  induction 1 as [|σ a σ' _ IH Hp]; [done|]. rewrite <- IH.
  destruct a as [|session_id|h m]; simpl in Hp.
  - apply bind_inv in Hp as (l & σ1 & [= <- <-] & [= <-]). done.
  - apply bind_inv in Hp as (l & σ1 & Hg & [= <-]).
    by apply get_session_history_frame in Hg as (_ & ? & _).
  - by apply add_message_inv in Hp as (o & _ & _ & ? & _).
Qed.

(** C9: in a run of the notebook, the calls for two distinct session
    identifiers return distinct history objects, and a message appended to
    the history of the first lands there and leaves the store's binding of
    the second and the object it binds as they were. *)
Theorem sessions_isolated (s1 s2 : string) (σ : state) :
  reachable σ → s1 ≠ s2 →
  ∃ h1 h2 σ1 σ2,
    get_session_history s1 σ = Ok (h1, σ1)
    ∧ get_session_history s2 σ1 = Ok (h2, σ2)
    ∧ h1 ≠ h2
    ∧ ∀ m, ∃ o1 σ3,
        heap σ2 !! h1 = Some o1
        ∧ add_message h1 m σ2 = Ok (tt, σ3)
        ∧ heap σ3 !! h1 = Some (History (messages o1 ++ [m]))
        ∧ store σ3 !! s2 = Some h2
        ∧ heap σ3 !! h2 = heap σ2 !! h2.
Proof.
  intros Hr Hne.
  destruct (get_session_history_returns s1 σ) as (h1 & σ1 & Hg1 & Hb1).
  destruct (get_session_history_returns s2 σ1) as (h2 & σ2 & Hg2 & Hb2).
  pose proof (reachable_get_session_history _ _ _ _ Hr Hg1) as Hr1.
  pose proof (reachable_get_session_history _ _ _ _ Hr1 Hg2) as Hr2.
  destruct (get_session_history_frame _ _ _ _ Hg2) as (Hsub & _ & _).
  assert (store σ2 !! s1 = Some h1) as Hb1' by (by eapply lookup_weaken).
  destruct (reachable_separated _ Hr2) as [Hinj _].
  destruct (reachable_allocated _ Hr2) as [_ Hal].
  assert (h1 ≠ h2) as Hdiff.
  { intros ->. apply Hne. by apply (Hinj s1 s2 h2). }
  exists h1, h2, σ1, σ2. split_and!; [done..|].
  intros m.
  destruct (lookup_lt_is_Some_2 (heap σ2) h1) as [o1 Ho1]; [by eapply Hal|].
  eexists o1, _. split; [done|].
  split; [by apply add_message_allocated|]. simpl. split_and!.
  - apply list_lookup_insert_eq. by eapply lookup_lt_Some.
  - done.
  - by apply list_lookup_insert_ne.
Qed.

Lemma sessions_isolated_witness :
  ∃ h1 h2 σ1 σ2,
    get_session_history "abc123" init_state = Ok (h1, σ1)
    ∧ get_session_history "xyz789" σ1 = Ok (h2, σ2)
    ∧ h1 ≠ h2
    ∧ ∀ m, ∃ o1 σ3,
        heap σ2 !! h1 = Some o1
        ∧ add_message h1 m σ2 = Ok (tt, σ3)
        ∧ heap σ3 !! h1 = Some (History (messages o1 ++ [m]))
        ∧ store σ3 !! "xyz789" = Some h2
        ∧ heap σ3 !! h2 = heap σ2 !! h2.
Proof.
  apply (sessions_isolated "abc123" "xyz789" init_state).
  - apply reachable_init.
  - discriminate.
Defined.

(** ** The history-wrapping combinator *)

Lemma invoke_resolved chain get input config σ h σ1 o :
  resolve_history get config σ = Ok (h, σ1) →
  heap σ1 !! h = Some o →
  RunnableWithMessageHistory_invoke chain get input config σ
  = Ok (chain (messages o) input,
        State (<[h := History (messages o
                               ++ [Message Human input;
                                   Message AI (chain (messages o) input)])]>
                 (heap σ1))
              (history σ1) (store σ1)).
Proof.
  intros Hres Ho. unfold RunnableWithMessageHistory_invoke.
  rewrite (bind_Ok _ _ _ _ _ Hres).
  rewrite (bind_Ok _ _ σ1 (messages o) σ1)
    by (unfold get_messages; by rewrite Ho).
  rewrite (bind_Ok _ _ _ _ _ (add_message_allocated _ _ _ _ Ho)).
  assert (h < length (heap σ1)) as Hlt by (by eapply lookup_lt_Some).
  erewrite bind_Ok; last first.
  { apply add_message_allocated. simpl. by apply list_lookup_insert_eq. }
  simpl. rewrite list_insert_insert_eq, <- (assoc_L (++)). done.
Qed.

(** An invocation of either wrapped chain of the notebook is made of
    actions: it leads from a state of a run to a state of a run. *)
Lemma reachable_invoke chain get input config σ output σ' :
  get = NoArg get_history ∨ get = OneArg get_session_history →
  reachable σ →
  RunnableWithMessageHistory_invoke chain get input config σ
  = Ok (output, σ') →
  reachable σ'.
Proof.
  intros Hget Hr Hinv. unfold RunnableWithMessageHistory_invoke in Hinv.
  apply bind_inv in Hinv as (h & σ1 & Hres & Hinv).
  apply bind_inv in Hinv as (past & σ2 & Hmsgs & Hinv).
  apply bind_inv in Hinv as ([] & σ3 & Hadd1 & Hinv).
  apply bind_inv in Hinv as ([] & σ4 & Hadd2 & [= _ <-]).
  assert (reachable σ1) as Hr1.
  { destruct Hget as [-> | ->]; simpl in Hres.
    - by injection Hres as _ <-.
    - destruct (config !! "configurable" ≫= _) as [session_id|];
        [by eapply reachable_get_session_history | done]. }
  assert (σ2 = σ1) as ->.
  { unfold get_messages in Hmsgs. destruct (heap σ1 !! h); [|done].
    by injection Hmsgs as _ <-. }
  apply (reachable_step σ3 (AddMessage h (Message AI (chain past input))));
    [|exact Hadd2].
  by apply (reachable_step σ1 (AddMessage h (Message Human input))).
Qed.

(** C8: in a run of the notebook [get_history] returns, in every state,
    the object that the module-level statement created, and changes
    nothing; so an invocation of the first wrapped chain, whatever its
    configuration, hands the messages of that one object to the chain and
    appends the turn to it. *)
Theorem get_history_shared (σ : state) :
  reachable σ →
  get_history σ = Ok (history init_state, σ)
  ∧ ∀ (llm : model) (input : string)
      (config : gmap string (gmap string string)),
    ∃ chat_history output σ',
      heap σ !! history init_state = Some (History chat_history)
      ∧ Shared.wrapped_chain llm input config σ = Ok (output, σ')
      ∧ output = llm (Shared.prompt chat_history input)
      ∧ get_history σ' = Ok (history init_state, σ')
      ∧ heap σ' !! history init_state
        = Some (History (chat_history
                         ++ [Message Human input; Message AI output])).
Proof.
  intros Hr. pose proof (reachable_history _ Hr) as Hh.
  destruct (reachable_allocated _ Hr) as [Hlt _].
  assert (get_history σ = Ok (history init_state, σ)) as Hg
    by (unfold get_history; by rewrite Hh).
  split; [done|]. intros llm input config.
  destruct (lookup_lt_is_Some_2 (heap σ) (history σ) Hlt) as [[past] Ho].
  rewrite Hh in Ho, Hlt.
  eexists past, _, _. split; [done|]. split.
  { unfold Shared.wrapped_chain.
    by apply (invoke_resolved _ (NoArg get_history) _ _ σ _ σ _ Hg Ho). }
  simpl. split_and!; [done | | ].
  - unfold get_history. simpl. by rewrite Hh.
  - by apply list_lookup_insert_eq.
Qed.

Lemma get_history_shared_witness :
  get_history abc123_state = Ok (history init_state, abc123_state)
  ∧ ∀ (llm : model) (input : string)
      (config : gmap string (gmap string string)),
    ∃ chat_history output σ',
      heap abc123_state !! history init_state = Some (History chat_history)
      ∧ Shared.wrapped_chain llm input config abc123_state = Ok (output, σ')
      ∧ output = llm (Shared.prompt chat_history input)
      ∧ get_history σ' = Ok (history init_state, σ')
      ∧ heap σ' !! history init_state
        = Some (History (chat_history
                         ++ [Message Human input; Message AI output])).
Proof.
  apply (get_history_shared abc123_state).
  apply (reachable_step init_state (CallGetSessionHistory "abc123")).
  - apply reachable_init.
  - reflexivity.
Defined.

(** C3: with the one-argument callable, the history of an invocation is
    the callable applied to the value under ["session_id"] in the
    ["configurable"] entry of the configuration; for the notebook's wrapped
    chain it is the history that [get_session_history] returns for that
    identifier, whose messages are handed to the chain and to which the
    turn is appended. *)
Theorem invoke_resolves_session_id
    (config : gmap string (gmap string string))
    (configurable : gmap string string) (session_id : string)
    (llm : model) (input : string) (σ : state) :
  config !! "configurable" = Some configurable →
  configurable !! "session_id" = Some session_id →
  reachable σ →
  (∀ get : string → M loc,
     resolve_history (OneArg get) config = get session_id)
  ∧ ∃ h σ1 chat_history output σ',
      get_session_history session_id σ = Ok (h, σ1)
      ∧ heap σ1 !! h = Some (History chat_history)
      ∧ PerSession.wrapped_chain llm input config σ = Ok (output, σ')
      ∧ output = llm (Shared.prompt chat_history input)
      ∧ store σ' !! session_id = Some h
      ∧ heap σ' !! h
        = Some (History (chat_history
                         ++ [Message Human input; Message AI output])).
Proof.
  intros Hc Hs Hr.
  assert (∀ get : string → M loc,
            resolve_history (OneArg get) config = get session_id) as Hres.
  { intros get. unfold resolve_history. rewrite Hc. simpl. by rewrite Hs. }
  split; [done|].
  destruct (get_session_history_returns session_id σ) as (h & σ1 & Hg & Hb).
  pose proof (reachable_get_session_history _ _ _ _ Hr Hg) as Hr1.
  destruct (reachable_allocated _ Hr1) as [_ Hal].
  assert (h < length (heap σ1)) as Hlt by (by eapply Hal).
  destruct (lookup_lt_is_Some_2 (heap σ1) h Hlt) as [[past] Ho].
  eexists h, σ1, past, _, _. split; [done|]. split; [done|]. split.
  { unfold PerSession.wrapped_chain.
    apply (invoke_resolved _ (OneArg get_session_history) _ _ σ h σ1
             (History past)); [by rewrite Hres | done]. }
  simpl. split_and!; [done.. | by apply list_lookup_insert_eq].
Qed.

Lemma invoke_resolves_session_id_witness :
  (∀ get : string → M loc,
     resolve_history (OneArg get)
       {["configurable" := {["session_id" := "abc123"]}]} = get "abc123")
  ∧ ∃ h σ1 chat_history output σ',
      get_session_history "abc123" init_state = Ok (h, σ1)
      ∧ heap σ1 !! h = Some (History chat_history)
      ∧ PerSession.wrapped_chain (λ _, "Ahoy there, me hearty!") "Hello!"
          {["configurable" := {["session_id" := "abc123"]}]} init_state
        = Ok (output, σ')
      ∧ output = (λ _, "Ahoy there, me hearty!")
                   (Shared.prompt chat_history "Hello!")
      ∧ store σ' !! "abc123" = Some h
      ∧ heap σ' !! h
        = Some (History (chat_history
                         ++ [Message Human "Hello!"; Message AI output])).
Proof.
  apply (invoke_resolves_session_id
           {["configurable" := {["session_id" := "abc123"]}]}
           {["session_id" := "abc123"]} "abc123"
           (λ _, "Ahoy there, me hearty!") "Hello!" init_state).
  - reflexivity.
  - reflexivity.
  - apply reachable_init.
Defined.

(** ** The legacy chain and the composed chain *)









(** * Further properties of the notebook's code *)

(** ** What a lookup changes *)

Lemma get_session_history_grows session_id σ h σ' :
  get_session_history session_id σ = Ok (h, σ') →
  dom (store σ') = {[session_id]} ∪ dom (store σ)
  ∧ length (heap σ')
    = length (heap σ)
      + (if decide (session_id ∈ dom (store σ)) then 0 else 1).
Proof.
  destruct (store σ !! session_id) as [h0|] eqn:Hs.
  - rewrite (get_session_history_bound _ _ _ Hs). intros [= <- <-].
    assert (session_id ∈ dom (store σ)) as Hin by (apply elem_of_dom; eauto).
    rewrite decide_True by done. split; [set_solver | lia].
  - rewrite (get_session_history_unbound _ _ Hs). intros [= <- <-]. simpl.
    assert (session_id ∉ dom (store σ)) as Hout by (by apply not_elem_of_dom).
    rewrite decide_False by done.
    rewrite dom_insert_L, length_app. simpl. split; [done | lia].
Qed.

Lemma get_session_histories_inv session_id rest σ hs σ' :
  get_session_histories (session_id :: rest) σ = Ok (hs, σ') →
  ∃ h σ1 hs',
    get_session_history session_id σ = Ok (h, σ1)
    ∧ get_session_histories rest σ1 = Ok (hs', σ')
    ∧ hs = h :: hs'.
Proof.
  intros Hrun. simpl in Hrun.
  apply bind_inv in Hrun as (h & σ1 & Hg & Hrun).
  apply bind_inv in Hrun as (hs' & σ2 & Hrest & [= <- <-]).
  by exists h, σ1, hs'.
Qed.

Lemma size_difference_nil (D : gset string) : size (∅ ∖ D) = 0.
Proof. apply size_empty_iff. set_solver. Qed.

Lemma size_difference_bound (x : string) (X D : gset string) :
  x ∈ D → size (({[x]} ∪ X) ∖ D) = size (X ∖ ({[x]} ∪ D)).
Proof. intros Hin. f_equal. set_solver. Qed.

Lemma size_difference_unbound (x : string) (X D : gset string) :
  x ∉ D → size (({[x]} ∪ X) ∖ D) = 1 + size (X ∖ ({[x]} ∪ D)).
Proof.
  intros Hout.
  assert (({[x]} ∪ X) ∖ D = {[x]} ∪ X ∖ ({[x]} ∪ D)) as ->.
  { apply set_eq. intros y. destruct (decide (y = x)) as [->|Hne]; set_solver. }
  rewrite size_union by set_solver. by rewrite size_singleton.
Qed.

(** X1: however often an identifier occurs in a sequence of lookups, the
    sequence returns one reference per lookup, leaves the store with the
    keys it had and the identifiers looked up, and creates exactly one
    object for each distinct identifier that was not a key. *)
Theorem one_object_per_new_session (session_ids : list string) (σ : state) :
  ∃ hs σ',
    get_session_histories session_ids σ = Ok (hs, σ')
    ∧ length hs = length session_ids
    ∧ dom (store σ') = dom (store σ) ∪ list_to_set session_ids
    ∧ length (heap σ')
      = length (heap σ)
        + size (list_to_set session_ids ∖ dom (store σ) : gset string).
Proof.
  revert σ. induction session_ids as [|session_id rest IH]; intros σ.
  - exists [], σ. split_and!; [done | done | | ].
    + simpl. by rewrite (right_id_L ∅ (∪)).
    + simpl. rewrite size_difference_nil. lia.
  - destruct (get_session_history_returns session_id σ) as (h & σ1 & Hg & _).
    destruct (IH σ1) as (hs & σ' & Hrest & Hlen & Hdom & Hheap).
    destruct (get_session_history_grows _ _ _ _ Hg) as [Hdom1 Hheap1].
    exists (h :: hs), σ'. split_and!.
    + simpl. by rewrite (bind_Ok _ _ _ _ _ Hg), (bind_Ok _ _ _ _ _ Hrest).
    + simpl. by rewrite Hlen.
    + rewrite Hdom, Hdom1, list_to_set_cons.
      rewrite (comm_L (∪) {[session_id]}), <- (assoc_L (∪)). done.
    + rewrite Hheap, Hheap1, Hdom1, list_to_set_cons.
      destruct (decide (session_id ∈ dom (store σ))) as [Hin|Hout].
      * rewrite (size_difference_bound _ _ _ Hin). lia.
      * rewrite (size_difference_unbound _ _ _ Hout). lia.
Qed.

Lemma get_session_history_binds session_id σ h σ' :
  get_session_history session_id σ = Ok (h, σ') →
  store σ' !! session_id = Some h.
Proof.
  intros Hg.
  destruct (get_session_history_returns session_id σ) as (h0 & σ0 & Hg0 & Hb).
  rewrite Hg in Hg0. by injection Hg0 as -> ->.
Qed.

Lemma get_session_histories_keep session_ids σ hs σ' :
  get_session_histories session_ids σ = Ok (hs, σ') →
  store σ ⊆ store σ'
  ∧ history σ' = history σ
  ∧ (∀ l o, heap σ !! l = Some o → heap σ' !! l = Some o).
Proof.
  revert σ hs. induction session_ids as [|session_id rest IH]; intros σ hs.
  - intros [= <- <-]. done.
  - intros (h & σ1 & hs' & Hg & Hrest & ->)%get_session_histories_inv.
    apply get_session_history_frame in Hg as (Hsub1 & Hh1 & Hobj1).
    apply IH in Hrest as (Hsub & Hh & Hobj).
    split_and!; [by transitivity (store σ1) | congruence | eauto].
Qed.

Lemma get_session_histories_bindings session_ids σ hs σ' :
  get_session_histories session_ids σ = Ok (hs, σ') →
  Forall2 (λ s h, store σ' !! s = Some h) session_ids hs.
Proof.
  revert σ hs. induction session_ids as [|session_id rest IH]; intros σ hs.
  - intros [= <- <-]. constructor.
  - intros (h & σ1 & hs' & Hg & Hrest & ->)%get_session_histories_inv.
    constructor; [|by eapply IH].
    apply get_session_history_binds in Hg.
    apply get_session_histories_keep in Hrest as (Hsub & _).
    by eapply lookup_weaken.
Qed.

Lemma reachable_get_session_histories session_ids σ hs σ' :
  reachable σ → get_session_histories session_ids σ = Ok (hs, σ') →
  reachable σ'.
Proof.
  revert σ hs. induction session_ids as [|session_id rest IH]; intros σ hs Hr.
  - by intros [= <- <-].
  - intros (h & σ1 & hs' & Hg & Hrest & ->)%get_session_histories_inv.
    eapply IH; [|done]. by eapply reachable_get_session_history.
Qed.

(** X2: in a run of the notebook, two lookups of a sequence return the
    same object exactly when they are lookups of the same identifier. *)
Theorem lookups_agree_on_identifiers (session_ids : list string)
    (σ : state) :
  reachable σ →
  ∃ hs σ',
    get_session_histories session_ids σ = Ok (hs, σ')
    ∧ ∀ i j si sj hi hj,
        session_ids !! i = Some si → session_ids !! j = Some sj →
        hs !! i = Some hi → hs !! j = Some hj →
        (hi = hj ↔ si = sj).
Proof.
  intros Hr.
  destruct (get_session_histories_frame session_ids σ)
    as (hs & σ' & Hrun & _).
  exists hs, σ'. split; [done|].
  pose proof (get_session_histories_bindings _ _ _ _ Hrun) as Hall.
  destruct (reachable_separated σ') as [Hinj _];
    [by eapply reachable_get_session_histories|].
  intros i j si sj hi hj Hsi Hsj Hhi Hhj.
  destruct (Forall2_lookup_l _ _ _ _ _ Hall Hsi) as (hi' & Hhi' & Hbi).
  destruct (Forall2_lookup_l _ _ _ _ _ Hall Hsj) as (hj' & Hhj' & Hbj).
  assert (hi' = hi) as -> by congruence.
  assert (hj' = hj) as -> by congruence.
  split.
  - intros ->. by eapply Hinj.
  - intros ->. congruence.
Qed.

Lemma lookups_agree_on_identifiers_witness :
  ∃ hs σ',
    get_session_histories ["abc123"; "xyz789"; "abc123"] init_state
    = Ok (hs, σ')
    ∧ ∀ i j si sj hi hj,
        ["abc123"; "xyz789"; "abc123"] !! i = Some si →
        ["abc123"; "xyz789"; "abc123"] !! j = Some sj →
        hs !! i = Some hi → hs !! j = Some hj →
        (hi = hj ↔ si = sj).
Proof.
  apply (lookups_agree_on_identifiers
           ["abc123"; "xyz789"; "abc123"] init_state).
  apply reachable_init.
Defined.

(** X3: a message appended to the history of a session is still there,
    last in the same object, when the session is looked up again after any
    sequence of lookups: a lookup never drops or replaces a history. *)
Theorem messages_survive_lookups (session_ids : list string) (σ : state)
    (session_id : string) (h : loc) (o : InMemoryChatMessageHistory)
    (m : message) :
  store σ !! session_id = Some h →
  heap σ !! h = Some o →
  ∃ σ1 hs σ2,
    add_message h m σ = Ok (tt, σ1)
    ∧ get_session_histories session_ids σ1 = Ok (hs, σ2)
    ∧ get_session_history session_id σ2 = Ok (h, σ2)
    ∧ get_messages h σ2 = Ok (messages o ++ [m], σ2).
Proof.
  intros Hb Ho.
  pose proof (add_message_allocated h m σ o Ho) as Hadd.
  set (σ1 := State (<[h := History (messages o ++ [m])]> (heap σ))
                   (history σ) (store σ)) in *.
  destruct (get_session_histories_frame session_ids σ1)
    as (hs & σ2 & Hrun & _).
  destruct (get_session_histories_keep _ _ _ _ Hrun) as (Hsub & _ & Hobj).
  exists σ1, hs, σ2. split_and!; [done | done | |].
  - apply get_session_history_bound. by eapply lookup_weaken.
  - assert (heap σ2 !! h = Some (History (messages o ++ [m]))) as Ho2.
    { apply Hobj. simpl. apply list_lookup_insert_eq.
      by eapply lookup_lt_Some. }
    unfold get_messages. by rewrite Ho2.
Qed.

Lemma messages_survive_lookups_witness :
  ∃ σ1 hs σ2,
    add_message 1 (Message Human "Hello!") abc123_state = Ok (tt, σ1)
    ∧ get_session_histories ["xyz789"; "abc123"] σ1 = Ok (hs, σ2)
    ∧ get_session_history "abc123" σ2 = Ok (1, σ2)
    ∧ get_messages 1 σ2
      = Ok (messages (History []) ++ [Message Human "Hello!"], σ2).
Proof.
  apply (messages_survive_lookups ["xyz789"; "abc123"] abc123_state
           "abc123" 1 (History []) (Message Human "Hello!")).
  - reflexivity.
  - reflexivity.
Defined.

(** ** What no action does *)

Lemma run_inv a rest σ σ' :
  run (a :: rest) σ = Ok (tt, σ') →
  ∃ σ1, perform a σ = Ok (tt, σ1) ∧ run rest σ1 = Ok (tt, σ').
Proof.
  intros Hrun. simpl in Hrun.
  apply bind_inv in Hrun as ([] & σ1 & Hp & Hrest). by exists σ1.
Qed.

Lemma perform_keeps a σ σ' :
  perform a σ = Ok (tt, σ') →
  store σ ⊆ store σ'
  ∧ history σ' = history σ
  ∧ ∀ l o, heap σ !! l = Some o →
      ∃ o', heap σ' !! l = Some o' ∧ messages o `prefix_of` messages o'.
Proof.
  intros Hp. destruct a as [|session_id|h m]; simpl in Hp.
  - apply bind_inv in Hp as (l & σ1 & [= <- <-] & [= <-]).
    split_and!; [done..|]. intros l' o Ho. by exists o.
  - apply bind_inv in Hp as (l & σ1 & Hg & [= <-]).
    apply get_session_history_frame in Hg as (Hsub & Hh & Hobj).
    split_and!; [done..|]. intros l' o Ho. exists o. split; [eauto | done].
  - apply add_message_inv in Hp as (o0 & Ho0 & Hheap & Hh & Hst).
    split_and!; [by rewrite Hst | done |].
    intros l o Ho. rewrite Hheap. destruct (decide (h = l)) as [->|Hne].
    + exists (History (messages o0 ++ [m])). split.
      * apply list_lookup_insert_eq. by eapply lookup_lt_Some.
      * pose proof (eq_trans (eq_sym Ho) Ho0) as [= ->].
        simpl. by apply prefix_app_r.
    + exists o. by rewrite list_lookup_insert_ne.
Qed.

(** X4: the histories are append-only and the bindings are for good:
    whatever calls of the glue functions and appends are performed, every
    binding of the store is kept, the shared [history] is the same
    object, and every history object that existed still exists with the
    messages it had as the first of its messages. *)
Theorem histories_append_only (actions : list action) (σ σ' : state) :
  run actions σ = Ok (tt, σ') →
  store σ ⊆ store σ'
  ∧ history σ' = history σ
  ∧ ∀ l o, heap σ !! l = Some o →
      ∃ o', heap σ' !! l = Some o' ∧ messages o `prefix_of` messages o'.
Proof.
  revert σ. induction actions as [|a rest IH]; intros σ.
  - intros [= <-]. split_and!; [done..|]. intros l o Ho. by exists o.
  - intros (σ1 & Hp & Hrest)%run_inv.
    apply perform_keeps in Hp as (Hsub1 & Hh1 & Hobj1).
    apply IH in Hrest as (Hsub & Hh & Hobj).
    split_and!; [by transitivity (store σ1) | congruence |].
    intros l o Ho.
    destruct (Hobj1 l o Ho) as (o1 & Ho1 & Hpre1).
    destruct (Hobj l o1 Ho1) as (o' & Ho' & Hpre).
    exists o'. split; [done | by transitivity (messages o1)].
Qed.

Lemma histories_append_only_witness :
  store init_state
  ⊆ store (State [History [Message Human "how are you?"];
                   History [Message Human "Hello!"]] 0 {["abc123" := 1]})
  ∧ history (State [History [Message Human "how are you?"];
                    History [Message Human "Hello!"]] 0 {["abc123" := 1]})
    = history init_state
  ∧ ∀ l o, heap init_state !! l = Some o →
      ∃ o',
        heap (State [History [Message Human "how are you?"];
                     History [Message Human "Hello!"]] 0 {["abc123" := 1]})
          !! l = Some o'
        ∧ messages o `prefix_of` messages o'.
Proof.
  apply (histories_append_only
           [CallGetHistory; AddMessage 0 (Message Human "how are you?");
            CallGetSessionHistory "abc123";
            AddMessage 1 (Message Human "Hello!")]
           init_state).
  reflexivity.
Defined.

(** X5: the calls of the glue functions and the appends keep the
    invariant of the state: from a state where every reference designates
    an object, no object is bound to two identifiers and none is the
    shared [history], every list of actions that does not raise ends in
    such a state. *)
Theorem run_keeps_invariant (actions : list action) (σ σ' : state) :
  allocated σ → separated σ →
  run actions σ = Ok (tt, σ') →
  allocated σ' ∧ separated σ'.
Proof.
  revert σ. induction actions as [|a rest IH]; intros σ Hal Hsep.
  - by intros [= <-].
  - intros (σ1 & Hp & Hrest)%run_inv.
    apply (IH σ1); [by eapply perform_allocated | | done].
    by eapply perform_separated.
Qed.

Lemma run_keeps_invariant_witness :
  allocated (State [History [Message Human "how are you?"];
                    History [Message Human "Hello!"]] 0 {["abc123" := 1]})
  ∧ separated (State [History [Message Human "how are you?"];
                      History [Message Human "Hello!"]] 0 {["abc123" := 1]}).
Proof.
  apply (run_keeps_invariant
           [CallGetHistory; AddMessage 0 (Message Human "how are you?");
            CallGetSessionHistory "abc123";
            AddMessage 1 (Message Human "Hello!")]
           init_state).
  - split; simpl; [lia | intros key h; by rewrite lookup_empty].
  - split; simpl; [intros k1 k2 h | intros key]; by rewrite lookup_empty.
  - reflexivity.
Defined.

(** X6: in a run of the notebook the history of a session is never the
    shared [history] of the first LCEL cell: an append to the one leaves
    the messages of the other as they were. *)
Theorem shared_history_apart (session_id : string) (σ : state) :
  reachable σ →
  ∃ h σ',
    get_session_history session_id σ = Ok (h, σ')
    ∧ h ≠ history σ'
    ∧ (∀ m, ∃ σ'', add_message h m σ' = Ok (tt, σ'')
                   ∧ heap σ'' !! history σ'' = heap σ' !! history σ')
    ∧ (∀ m, ∃ σ'', add_message (history σ') m σ' = Ok (tt, σ'')
                   ∧ heap σ'' !! h = heap σ' !! h).
Proof.
  intros Hr.
  destruct (get_session_history_returns session_id σ) as (h & σ' & Hg & Hb).
  pose proof (reachable_get_session_history _ _ _ _ Hr Hg) as Hr'.
  destruct (reachable_separated _ Hr') as [_ Hsep].
  destruct (reachable_allocated _ Hr') as [Hhist Hal].
  assert (h ≠ history σ') as Hne by (intros ->; by apply (Hsep session_id)).
  destruct (lookup_lt_is_Some_2 (heap σ') h) as [o Ho]; [by eapply Hal|].
  destruct (lookup_lt_is_Some_2 (heap σ') (history σ') Hhist) as [o0 Ho0].
  exists h, σ'. split_and!; [done | done | |].
  - intros m. eexists. split; [by apply add_message_allocated|].
    simpl. by apply list_lookup_insert_ne.
  - intros m. eexists. split; [by apply add_message_allocated|].
    simpl. by apply list_lookup_insert_ne.
Qed.

Lemma shared_history_apart_witness :
  ∃ h σ',
    get_session_history "abc123" init_state = Ok (h, σ')
    ∧ h ≠ history σ'
    ∧ (∀ m, ∃ σ'', add_message h m σ' = Ok (tt, σ'')
                   ∧ heap σ'' !! history σ'' = heap σ' !! history σ')
    ∧ (∀ m, ∃ σ'', add_message (history σ') m σ' = Ok (tt, σ'')
                   ∧ heap σ'' !! h = heap σ' !! h).
Proof.
  apply (shared_history_apart "abc123" init_state). apply reachable_init.
Defined.

(** X7: [store = {}] forgets the sessions: a lookup after it, of an
    identifier that was bound, creates a new object without messages and
    binds the identifier to it alone; the object that was bound stays as
    it was, out of the store. *)
Theorem store_reset_forgets (session_id : string) (h : loc) (σ : state) :
  allocated σ →
  store σ !! session_id = Some h →
  ∃ h' σ',
    (assign_store_empty ;; get_session_history session_id) σ = Ok (h', σ')
    ∧ h' ≠ h
    ∧ get_messages h' σ' = Ok ([], σ')
    ∧ heap σ' !! h = heap σ !! h
    ∧ store σ' = {[session_id := h']}.
Proof.
  intros [_ Hal] Hb. apply Hal in Hb as Hlt.
  set (σ0 := State (heap σ) (history σ) ∅).
  assert (store σ0 !! session_id = None) as Hn by apply lookup_empty.
  pose proof (get_session_history_unbound _ _ Hn) as Hg.
  eexists _, _. split.
  { rewrite (bind_Ok _ _ σ tt σ0) by done. exact Hg. }
  simpl. split_and!.
  - lia.
  - unfold get_messages. simpl. by rewrite list_lookup_middle.
  - by apply lookup_app_l.
  - apply insert_empty.
Qed.

Lemma store_reset_forgets_witness :
  ∃ h' σ',
    (assign_store_empty ;; get_session_history "abc123") abc123_state
    = Ok (h', σ')
    ∧ h' ≠ 1
    ∧ get_messages h' σ' = Ok ([], σ')
    ∧ heap σ' !! 1 = heap abc123_state !! 1
    ∧ store σ' = {["abc123" := h']}.
Proof.
  apply (store_reset_forgets "abc123" 1 abc123_state).
  - split; simpl; [lia|]. intros key h.
    destruct (decide (key = "abc123")) as [->|Hne].
    + rewrite lookup_singleton_eq. intros [= <-]. lia.
    + by rewrite lookup_singleton_ne.
  - reflexivity.
Defined.

(** ** The two prompts *)

Lemma string_app_cons (c : Ascii.ascii) (s1 s2 : string) :
  String c s1 +:+ s2 = String c (s1 +:+ s2).
Proof. reflexivity. Qed.

Lemma string_app_assoc (s1 s2 s3 : string) :
  (s1 +:+ s2) +:+ s3 = s1 +:+ (s2 +:+ s3).
Proof.
  induction s1 as [|c s1 IH]; [done|]. rewrite !string_app_cons. by rewrite IH.
Qed.

Lemma string_app_length (s1 s2 : string) :
  String.length (s1 +:+ s2) = String.length s1 + String.length s2.
Proof.
  induction s1 as [|c s1 IH]; [done|]. rewrite string_app_cons. simpl.
  by rewrite IH.
Qed.

(** X8: the prompt of the LCEL cells keeps the past messages and the input
    apart: two prompts are the same only for the same past messages and
    the same input. *)
Theorem composed_prompt_injective (chat_history1 chat_history2 : list message)
    (input1 input2 : string) :
  Shared.prompt chat_history1 input1 = Shared.prompt chat_history2 input2 →
  chat_history1 = chat_history2 ∧ input1 = input2.
Proof.
  unfold Shared.prompt. simpl. intros [= Heq].
  apply app_inj_tail in Heq as [-> [= ->]]. done.
Qed.

Lemma composed_prompt_injective_witness :
  [Message Human "how are you?"] = [Message Human "how are you?"]
  ∧ "Hello!" = "Hello!".
Proof.
  apply (composed_prompt_injective
           [Message Human "how are you?"] [Message Human "how are you?"]
           "Hello!" "Hello!").
  reflexivity.
Defined.

(** X9: the legacy template does not keep the history text and the input
    apart: a history text that ends in a line feed, [Question: ] and some
    text gives the prompt of the shorter history with that text moved to
    the head of the input. *)
Theorem legacy_template_ambiguous (history text input : string) :
  Legacy.prompt (history +:+ nl +:+ "Question: " +:+ text) input
  = Legacy.prompt history (text +:+ nl +:+ "Question: " +:+ input)
  ∧ history +:+ nl +:+ "Question: " +:+ text ≠ history.
Proof.
  split.
  - unfold Legacy.prompt, Legacy.template. do 2 f_equal.
    rewrite !string_app_assoc. done.
  - intros Heq. apply (f_equal String.length) in Heq.
    rewrite !string_app_length in Heq. simpl in Heq. lia.
Qed.

(** ** Invocations of the per-session wrapped chain *)

Lemma wrapped_chain_session llm input config session_id σ h σ1 past :
  config !! "configurable" ≫= (.!! "session_id") = Some session_id →
  get_session_history session_id σ = Ok (h, σ1) →
  heap σ1 !! h = Some (History past) →
  PerSession.wrapped_chain llm input config σ
  = Ok (llm (Shared.prompt past input),
        State (<[h := History (past
                               ++ [Message Human input;
                                   Message AI
                                     (llm (Shared.prompt past input))])]>
                 (heap σ1))
              (history σ1) (store σ1)).
Proof.
  intros Hc Hg Ho. unfold PerSession.wrapped_chain.
  rewrite (invoke_resolved (PerSession.chain llm)
             (OneArg get_session_history) input config σ h σ1
             (History past)); [done | | done].
  unfold resolve_history. by rewrite Hc.
Qed.

(** X10: with the combinator as modelled, the per-session wrapped chain
    remembers: on a second invocation under the same session identifier
    the chain is handed the past messages, then the first input and the
    first answer, and both turns end up, in order, in the one history of
    the session. *)
Theorem session_remembers_turns (llm : model) (input1 input2 : string)
    (config : gmap string (gmap string string)) (session_id : string)
    (σ : state) :
  config !! "configurable" ≫= (.!! "session_id") = Some session_id →
  reachable σ →
  ∃ h σ0 past output1 σ1 output2 σ2,
    get_session_history session_id σ = Ok (h, σ0)
    ∧ heap σ0 !! h = Some (History past)
    ∧ PerSession.wrapped_chain llm input1 config σ = Ok (output1, σ1)
    ∧ PerSession.wrapped_chain llm input2 config σ1 = Ok (output2, σ2)
    ∧ output1 = llm (Shared.prompt past input1)
    ∧ output2
      = llm (Shared.prompt
               (past ++ [Message Human input1; Message AI output1]) input2)
    ∧ store σ2 !! session_id = Some h
    ∧ heap σ2 !! h
      = Some (History (past ++ [Message Human input1; Message AI output1;
                                Message Human input2; Message AI output2])).
Proof.
  intros Hc Hr.
  destruct (get_session_history_returns session_id σ) as (h & σ0 & Hg & Hb).
  pose proof (reachable_get_session_history _ _ _ _ Hr Hg) as Hr0.
  destruct (reachable_allocated _ Hr0) as [_ Hal].
  assert (h < length (heap σ0)) as Hlt by (by eapply Hal).
  destruct (lookup_lt_is_Some_2 (heap σ0) h Hlt) as [[past] Ho].
  pose proof (wrapped_chain_session llm input1 _ _ _ _ _ _ Hc Hg Ho) as H1.
  set (output1 := llm (Shared.prompt past input1)) in *.
  set (past1 := past ++ [Message Human input1; Message AI output1]) in *.
  set (σ1 := State (<[h := History past1]> (heap σ0))
                   (history σ0) (store σ0)) in *.
  assert (get_session_history session_id σ1 = Ok (h, σ1)) as Hg1
    by (by apply get_session_history_bound).
  assert (heap σ1 !! h = Some (History past1)) as Ho1
    by (by apply list_lookup_insert_eq).
  pose proof (wrapped_chain_session llm input2 _ _ _ _ _ _ Hc Hg1 Ho1) as H2.
  eexists h, σ0, past, output1, σ1, _, _.
  split_and!; [done | done | done | exact H2 | done | done | done |].
  simpl. rewrite list_insert_insert_eq.
  rewrite list_lookup_insert_eq by done.
  unfold past1. by rewrite <- (assoc_L (++)).
Qed.

Lemma session_remembers_turns_witness :
  ∃ h σ0 past output1 σ1 output2 σ2,
    get_session_history "abc123" init_state = Ok (h, σ0)
    ∧ heap σ0 !! h = Some (History past)
    ∧ PerSession.wrapped_chain get_buffer_string "Hello!"
        {["configurable" := {["session_id" := "abc123"]}]} init_state
      = Ok (output1, σ1)
    ∧ PerSession.wrapped_chain get_buffer_string "how are you?"
        {["configurable" := {["session_id" := "abc123"]}]} σ1
      = Ok (output2, σ2)
    ∧ output1 = get_buffer_string (Shared.prompt past "Hello!")
    ∧ output2
      = get_buffer_string
          (Shared.prompt
             (past ++ [Message Human "Hello!"; Message AI output1])
             "how are you?")
    ∧ store σ2 !! "abc123" = Some h
    ∧ heap σ2 !! h
      = Some (History (past ++ [Message Human "Hello!"; Message AI output1;
                                Message Human "how are you?";
                                Message AI output2])).
Proof.
  apply (session_remembers_turns get_buffer_string "Hello!" "how are you?"
           {["configurable" := {["session_id" := "abc123"]}]} "abc123"
           init_state).
  - reflexivity.
  - apply reachable_init.
Defined.

Lemma get_session_history_other s1 s2 σ h σ' :
  s1 ≠ s2 → get_session_history s1 σ = Ok (h, σ') →
  store σ' !! s2 = store σ !! s2.
Proof.
  intros Hne. destruct (store σ !! s1) as [h0|] eqn:Hs.
  - rewrite (get_session_history_bound _ _ _ Hs). by intros [= <- <-].
  - rewrite (get_session_history_unbound _ _ Hs). intros [= <- <-]. simpl.
    by rewrite lookup_insert_ne.
Qed.

(** X11: with the combinator as modelled, a turn in one session does not
    reach the prompt of another: after an invocation under [s1], an
    invocation under a different [s2] hands the chain exactly the messages
    that the history of [s2] held before the invocation under [s1]. *)
Theorem sessions_do_not_leak (llm : model) (input1 input2 : string)
    (config1 config2 : gmap string (gmap string string)) (s1 s2 : string)
    (σ : state) :
  config1 !! "configurable" ≫= (.!! "session_id") = Some s1 →
  config2 !! "configurable" ≫= (.!! "session_id") = Some s2 →
  s1 ≠ s2 →
  reachable σ →
  ∃ h2 σa past2 output1 σ1 output2 σ2,
    get_session_history s2 σ = Ok (h2, σa)
    ∧ heap σa !! h2 = Some (History past2)
    ∧ PerSession.wrapped_chain llm input1 config1 σ = Ok (output1, σ1)
    ∧ PerSession.wrapped_chain llm input2 config2 σ1 = Ok (output2, σ2)
    ∧ output2 = llm (Shared.prompt past2 input2).
Proof.
  intros Hc1 Hc2 Hne Hr.
  destruct (get_session_history_returns s1 σ) as (h1 & σ0 & Hg1 & Hb1).
  pose proof (reachable_get_session_history _ _ _ _ Hr Hg1) as Hr0.
  destruct (reachable_allocated _ Hr0) as [_ Hal0].
  destruct (reachable_separated _ Hr0) as [Hinj0 _].
  assert (h1 < length (heap σ0)) as Hlt1 by (by eapply Hal0).
  destruct (lookup_lt_is_Some_2 (heap σ0) h1 Hlt1) as [[past1] Ho1].
  pose proof (wrapped_chain_session llm input1 _ _ _ _ _ _ Hc1 Hg1 Ho1) as H1.
  set (output1 := llm (Shared.prompt past1 input1)) in *.
  set (σ1 := State (<[h1 := History (past1 ++ [Message Human input1;
                                                Message AI output1])]>
                      (heap σ0))
                   (history σ0) (store σ0)) in *.
  pose proof (get_session_history_other _ _ _ _ _ Hne Hg1) as Hsame.
  destruct (get_session_history_frame _ _ _ _ Hg1) as (_ & _ & Hobj).
  destruct (store σ !! s2) as [h2|] eqn:Hs2.
  - (* the session [s2] has a history already *)
    destruct (reachable_allocated _ Hr) as [_ Hal].
    destruct (lookup_lt_is_Some_2 (heap σ) h2) as [[past2] Ho2];
      [by eapply Hal|].
    assert (h1 ≠ h2) as Hdiff.
    { intros ->. apply Hne. by apply (Hinj0 s1 s2 h2). }
    assert (get_session_history s2 σ1 = Ok (h2, σ1)) as Hg2
      by (by apply get_session_history_bound).
    assert (heap σ1 !! h2 = Some (History past2)) as Ho2'.
    { simpl. rewrite list_lookup_insert_ne by done. by apply Hobj. }
    pose proof (wrapped_chain_session llm input2 _ _ _ _ _ _ Hc2 Hg2 Ho2')
      as H2.
    eexists h2, σ, past2, output1, σ1, _, _.
    split_and!; [by apply get_session_history_bound | done | done
                 | exact H2 | done].
  - (* the session [s2] is new *)
    assert (store σ1 !! s2 = None) as Hs2' by done.
    pose proof (get_session_history_unbound _ _ Hs2') as Hg2.
    pose proof (wrapped_chain_session llm input2 config2 s2 σ1 _ _ []
                  Hc2 Hg2) as H2.
    eexists _, _, [], output1, σ1, _, _.
    split_and!; [by apply get_session_history_unbound | | done
                 | apply H2 | done].
    + simpl. by apply list_lookup_middle.
    + simpl. by apply list_lookup_middle.
Qed.

Lemma sessions_do_not_leak_witness :
  ∃ h2 σa past2 output1 σ1 output2 σ2,
    get_session_history "xyz789" abc123_state = Ok (h2, σa)
    ∧ heap σa !! h2 = Some (History past2)
    ∧ PerSession.wrapped_chain get_buffer_string "Hello!"
        {["configurable" := {["session_id" := "abc123"]}]} abc123_state
      = Ok (output1, σ1)
    ∧ PerSession.wrapped_chain get_buffer_string "how are you?"
        {["configurable" := {["session_id" := "xyz789"]}]} σ1
      = Ok (output2, σ2)
    ∧ output2 = get_buffer_string (Shared.prompt past2 "how are you?").
Proof.
  apply (sessions_do_not_leak get_buffer_string "Hello!" "how are you?"
           {["configurable" := {["session_id" := "abc123"]}]}
           {["configurable" := {["session_id" := "xyz789"]}]}
           "abc123" "xyz789" abc123_state).
  - reflexivity.
  - reflexivity.
  - discriminate.
  - apply (reachable_step init_state (CallGetSessionHistory "abc123")).
    + apply reachable_init.
    + reflexivity.
Defined.
